(** * lib/core/patch.py: the unified random generator and the "reversible"
    decoding error handler

  A shallow embedding of [unisonRandom] (the linear congruential
  generator installed over [random.seed], [random.randint],
  [random.choice] and [random.sample]) and of [_reversible] (the codec
  error handler registered under the name "reversible"), together with
  the properties the specification states about them. *)

From Stdlib Require Import ZArith List String Ascii Bool Lia.
From Stdlib Require Import Strings.Byte Strings.HexString.
From Stdlib Require Import Znumtheory Zpow_facts.
Import ListNotations.

Local Open Scope Z_scope.

(** ** The fragment of Python the two components use *)

Module Py.

(** The built-in exceptions the modelled code can raise.  The module
    defines no exception class of its own; [OtherError] stands for any
    class that is referred to by name only. *)
Inductive exn : Type :=
| ZeroDivisionError
| IndexError
| ValueError
| OtherError (name : string).

(** The result of evaluating an expression: a value, or a raised
    exception. *)
Inductive outcome (A : Type) : Type :=
| Return (a : A)
| Raise (e : exn).
Arguments Return {A} a.
Arguments Raise {A} e.

Definition bind {A B} (c : outcome A) (k : A -> outcome B) : outcome B :=
  match c with
  | Return a => k a
  | Raise e => Raise e
  end.

(** [x % n] on integers: floor modulo (the result has the sign of [n]),
    [ZeroDivisionError] when [n] is zero. *)
Definition mod_ (x n : Z) : outcome Z :=
  if n =? 0 then Raise ZeroDivisionError else Return (x mod n).

(** [len(seq)]. *)
Definition len {A} (seq : list A) : Z := Z.of_nat (List.length seq).

(** [seq[i]]: a negative index counts from the end, an index outside
    [-len, len) raises [IndexError]. *)
Definition getitem {A} (seq : list A) (i : Z) : outcome A :=
  let j := if i <? 0 then i + len seq else i in
  if j <? 0 then Raise IndexError
  else match nth_error seq (Z.to_nat j) with
       | Some x => Return x
       | None => Raise IndexError
       end.

(** [xrange(k)]: the integers [0 .. k-1], nothing when [k <= 0]. *)
Definition xrange (k : Z) : list Z :=
  map Z.of_nat (List.seq 0 (Z.to_nat k)).

(** [seq[lo:hi]]: negative bounds count from the end, both are clamped
    to [0, len]. *)
Definition clamp {A} (seq : list A) (i : Z) : nat :=
  Z.to_nat (if i <? 0 then Z.max (i + len seq) 0 else Z.min i (len seq)).

Definition slice {A} (seq : list A) (lo hi : Z) : list A :=
  firstn (clamp seq hi - clamp seq lo) (skipn (clamp seq lo) seq).

End Py.

Import Py.

(** ** The generator: [unisonRandom] *)

Module Gen.

(** The module-level register [_rand]; a Python integer, so unbounded. *)
Definition register := Z.

(** [_rand = 0] at import time. *)
Definition _rand0 : register := 0.

(** A computation over the register.  The register is a global, so what
    was assigned before an exception is raised stays assigned: the final
    register is returned next to the outcome, not inside it. *)
Definition gen (A : Type) : Type := register -> outcome A * register.

Definition ret {A} (a : A) : gen A := fun r => (Return a, r).

Definition lift {A} (c : outcome A) : gen A := fun r => (c, r).

Definition bind {A B} (c : gen A) (k : A -> gen B) : gen B :=
  fun r =>
    match c r with
    | (Return a, r') => k a r'
    | (Raise e, r') => (Raise e, r')
    end.

Declare Scope gen_scope.
Delimit Scope gen_scope with gen.
Notation "x <- c ;; k" := (bind c (fun x => k))
  (at level 61, c at next level, right associativity) : gen_scope.
Local Open Scope gen_scope.

Definition a : Z := 1140671485.
Definition c : Z := 128201163.
Definition m : Z := 2 ^ 24.

(** [_lcg()]: [_rand = (a * _rand + c) % m; return _rand]. *)
Definition _lcg : gen Z :=
  fun _rand =>
    let _rand' := (a * _rand + c) mod m in
    (Return _rand', _rand').

(** [_randint(a, b)]: [a + (_lcg() % (b - a + 1))].  The call to [_lcg]
    is evaluated before the modulo. *)
Definition _randint (a b : Z) : gen Z :=
  x <- _lcg ;;
  y <- lift (mod_ x (b - a + 1)) ;;
  ret (a + y).

(** [_choice(seq)]: [seq[_randint(0, len(seq) - 1)]]. *)
Definition _choice {A} (seq : list A) : gen A :=
  i <- _randint 0 (len seq - 1) ;;
  lift (getitem seq i).

(** A list comprehension [[body for _ in it]]. *)
Fixpoint comprehension {I A} (body : I -> gen A) (it : list I)
  : gen (list A) :=
  match it with
  | [] => ret []
  | i :: it' =>
      x <- body i ;;
      xs <- comprehension body it' ;;
      ret (x :: xs)
  end.

(** [_sample(population, k)]:
    [[_choice(population) for _ in xrange(k)]]. *)
Definition _sample {A} (population : list A) (k : Z) : gen (list A) :=
  comprehension (fun _ => _choice population) (xrange k).

(** [_seed(seed)]: [_rand = seed]. *)
Definition _seed (seed : Z) : gen unit :=
  fun _ => (Return tt, seed).

(** *** Derived notions used in the statements *)

(** One step of the recurrence, as a function on registers. *)
Definition advance (r : register) : register := snd (_lcg r).

(** The register after [n] steps. *)
Definition advance_n (n : nat) (r : register) : register :=
  Nat.iter n advance r.

(** A session: [seed(s)] followed by one [randint(a, b)] per pair of
    [args], collecting what the draws return. *)
Definition draws (args : list (Z * Z)) : gen (list Z) :=
  comprehension (fun p => _randint (fst p) (snd p)) args.

Definition session (s : Z) (args : list (Z * Z)) : gen (list Z) :=
  _ <- _seed s ;;
  draws args.

(** The sequence a session produces, computed from the seed and the
    arguments alone. *)
Fixpoint stream (r : register) (args : list (Z * Z)) : list Z :=
  match args with
  | [] => []
  | (lo, hi) :: args' =>
      (lo + advance r mod (hi - lo + 1)) :: stream (advance r) args'
  end.

Definition in_domain (r : register) : Prop := 0 <= r < 2 ^ 24.

End Gen.

(** ** The error handler: [_reversible] *)

Module Codec.

Local Open Scope string_scope.

(** A unicode string, as the list of its code points. *)
Definition text := list Z.

(** [ord(_)] of an element of a byte string (on Python 3 the element
    already is that integer). *)
Definition ord (b : byte) : Z := Z.of_N (Byte.to_N b).

(** ['%x' % v]: lower-case hexadecimal digits, a minus sign in front of
    a negative number. *)
Definition format_x (v : Z) : string :=
  match v with
  | Z0 => "0"
  | Zpos p => HexString.Raw.of_pos p ""
  | Zneg p => "-" ++ HexString.Raw.of_pos p ""
  end.

(** Right-justification in a field of [width] characters, padded with
    spaces: what a width without the [0] flag does. *)
Definition rjust (width : nat) (s : string) : string :=
  string_of_list_ascii (repeat " "%char (width - String.length s)) ++ s.

(** ['%2x' % v]. *)
Definition format_2x (v : Z) : string := rjust 2 (format_x v).

(** [int(s, 16)].  Surrounding whitespace is skipped, then come an
    optional sign, an optional [0x] prefix (which one underscore may
    follow) and at least one hexadecimal digit, with single underscores
    allowed between digits; anything else is a [ValueError]. *)
Definition is_space (ch : ascii) : bool :=
  let n := nat_of_ascii ch in
  (n =? 32)%nat || ((9 <=? n)%nat && (n <=? 13)%nat).

Fixpoint skip_space (s : string) : string :=
  match s with
  | String ch s' => if is_space ch then skip_space s' else s
  | EmptyString => s
  end.

Fixpoint scan16 (s : string) (prev_underscore : bool) (acc : Z)
  : option (Z * string) :=
  match s with
  | String ch s' =>
      if (ch =? "_")%char then
        if prev_underscore then None else scan16 s' true acc
      else
        match HexString.ascii_to_digit ch with
        | Some d => scan16 s' false (16 * acc + Z.of_N d)
        | None => if prev_underscore then None else Some (acc, s)
        end
  | EmptyString => if prev_underscore then None else Some (acc, s)
  end.

Definition skip_sign (s : string) : Z * string :=
  match s with
  | String ch s' =>
      if (ch =? "+")%char then (1, s')
      else if (ch =? "-")%char then (-1, s')
      else (1, s)
  | EmptyString => (1, s)
  end.

Definition skip_prefix16 (s : string) : string :=
  match s with
  | String c0 (String c1 s') =>
      if (c0 =? "0")%char && ((c1 =? "x")%char || (c1 =? "X")%char) then
        match s' with
        | String c2 s'' => if (c2 =? "_")%char then s'' else s'
        | EmptyString => s'
        end
      else s
  | _ => s
  end.

Definition int16 (s : string) : outcome Z :=
  let '(sign, s1) := skip_sign (skip_space s) in
  let s2 := skip_prefix16 s1 in
  match s2 with
  | String ch _ =>
      match HexString.ascii_to_digit ch with
      | None => Raise ValueError
      | Some _ =>
          match scan16 s2 false 0 with
          | Some (v, rest) =>
              match skip_space rest with
              | EmptyString => Return (sign * v)
              | String _ _ => Raise ValueError
              end
          | None => Raise ValueError
          end
      end
  | EmptyString => Raise ValueError
  end.

(** [_unichr(cp)] (that is [chr] on Python 3): the one-character string
    of code point [cp], a [ValueError] outside [range(0x110000)]. *)
Definition _unichr (cp : Z) : outcome text :=
  if ((0 <=? cp) && (cp <? 1114112))%Z then Return [cp] else Raise ValueError.

(** [u"".join(piece(_) for _ in it)]: the pieces are computed in order
    and concatenated; the first exception ends the evaluation. *)
Fixpoint join {A} (piece : A -> outcome text) (it : list A)
  : outcome text :=
  match it with
  | [] => Return []
  | x :: it' =>
      Py.bind (piece x) (fun s =>
      Py.bind (join piece it') (fun rest =>
      Return (s ++ rest)%list))
  end.

(** The exception a decoder hands to its error handler: the bytes being
    decoded and the failing span [object[start:end]]. *)
Record UnicodeDecodeError : Type := {
  object : list byte;
  start : Z;
  end_ : Z
}.

Section Settings.

(** Two constants of [lib.core.settings], which is not part of the
    sources at hand: the mode flag, and the template of the textual
    escape, taken as the function [v |-> template % v]. *)
Variable INVALID_UNICODE_PRIVATE_AREA : bool.
Variable INVALID_UNICODE_CHAR_FORMAT : Z -> outcome text.

(** What the private-area branch computes for one element:
    [_unichr(int('000f00%2x' % v, 16))]. *)
Definition private_area_char (b : byte) : outcome text :=
  Py.bind (int16 ("000f00" ++ format_2x (ord b))) _unichr.

Definition _reversible (ex : UnicodeDecodeError) : outcome (text * Z) :=
  let span := slice (object ex) (start ex) (end_ ex) in
  if INVALID_UNICODE_PRIVATE_AREA then
    Py.bind (join private_area_char span) (fun s =>
    Return (s, end_ ex))
  else
    Py.bind (join (fun b => INVALID_UNICODE_CHAR_FORMAT (ord b)) span)
      (fun s => Return (s, end_ ex)).

End Settings.

(** The code point the private-area scheme assigns to a byte value. *)
Definition basePoint : Z := 983040.

End Codec.

(** ** Other patches of [dirtyPatches] *)

Module Patches.

Import Gen.
Local Open Scope gen_scope.

(** What [bytes(...)] does with one integer of its argument (and [chr] on
    Python 2): the byte of that value, a [ValueError] outside
    [range(256)]. *)
Definition byte_of_int (v : Z) : outcome byte :=
  if (0 <=? v) && (v <? 256) then
    match Byte.of_N (Z.to_N v) with
    | Some b => Return b
    | None => Raise ValueError
    end
  else Raise ValueError.

(** The replacement of [os.urandom]:
    [lambda size: bytes(random.randint(0, 255) for _ in range(size))]
    (on Python 2 the join of [chr(random.randint(0, 255))]).
    [random.randint] is looked up when the lambda runs; it is the first
    argument here. *)
Definition urandom (randint : Z -> Z -> gen Z) (size : Z)
  : gen (list byte) :=
  comprehension
    (fun _ => v <- randint 0 255 ;; lift (byte_of_int v))
    (xrange size).

(** The Python values [makelist] tells apart: the four container types
    of its [isinstance] test, with their items in iteration order (the
    keys, for a dictionary), and everything else; [VObject] is an object
    of any other class, with its truth value. *)
Unset Elimination Schemes.
Inductive value : Type :=
| VNone
| VBool (b : bool)
| VInt (z : Z)
| VStr (s : string)
| VTuple (items : list value)
| VList (items : list value)
| VSet (items : list value)
| VDict (entries : list (value * value))
| VObject (truth : bool).
Set Elimination Schemes.

(** [bool(data)]. *)
Definition truthy (data : value) : bool :=
  match data with
  | VNone => false
  | VBool b => b
  | VInt z => negb (z =? 0)
  | VStr s => negb (String.eqb s EmptyString)
  | VTuple items | VList items | VSet items =>
      negb (Nat.eqb (List.length items) 0)
  | VDict entries => negb (Nat.eqb (List.length entries) 0)
  | VObject truth => truth
  end.

(** [makelist(data)]: [list(data)] for a tuple, list, set or dict,
    [[data]] for another value that is true, [[]] otherwise. *)
Definition makelist (data : value) : list value :=
  match data with
  | VTuple items | VList items | VSet items => items
  | VDict entries => map fst entries
  | _ => if truthy data then [data] else []
  end.

End Patches.

(** ** Derived notions for the recurrence *)

Module Cycle.

Import Gen.

(** The inverse of the multiplier modulo [2 ** 24]. *)
Definition a_inv : Z := 602453.

(** One step of the recurrence backwards. *)
Definition retreat (r : register) : register := (a_inv * (r - c)) mod m.

(** The coefficients [(A, C)] of [2 ** k] steps of the recurrence taken
    at once, [r |-> (A * r + C) mod m], by repeated doubling. *)
Fixpoint double_coef (k : nat) : Z * Z :=
  match k with
  | O => (a mod m, c mod m)
  | S k' =>
      let '(A, C) := double_coef k' in
      ((A * A) mod m, (A * C + C) mod m)
  end.

End Cycle.

(** ** The error names of the specification

  The specification names the failures of the generator
  [RangeOrderError] and [EmptyDomainError].  The module defines no class
  of either name, so they are classes known by name only. *)

Module Taxonomy.

Definition RangeOrderError : exn := OtherError "RangeOrderError".
Definition EmptyDomainError : exn := OtherError "EmptyDomainError".

End Taxonomy.

Import Gen Codec Taxonomy Patches Cycle.

(** * Properties of the generator *)

Section GeneratorFacts.

Local Open Scope gen_scope.

Lemma lcg_eq (r : register) : _lcg r = (Return (advance r), advance r).
Proof. reflexivity. Qed.

Lemma advance_eq (r : register) : advance r = (a * r + c) mod m.
Proof. reflexivity. Qed.

Lemma advance_in_domain (r : register) : in_domain (advance r).
Proof.
  unfold in_domain; rewrite advance_eq; unfold m.
  apply Z.mod_pos_bound; reflexivity.
Qed.

Lemma advance_mod (r : register) : advance (r mod m) = advance r.
Proof.
  rewrite !advance_eq.
  assert (Hm : m <> 0) by (unfold m; lia).
  rewrite (Z.add_mod (a * (r mod m)) c m Hm).
  rewrite (Z.mul_mod_idemp_r a r m Hm).
  now rewrite <- (Z.add_mod (a * r) c m Hm).
Qed.

Lemma advance_n_shift (n : nat) (r : register) :
  advance_n n (advance r) = advance_n (S n) r.
Proof. unfold advance_n; now rewrite <- Nat.iter_succ_r. Qed.

Lemma randint_unfold (lo hi : Z) (r : register) :
  _randint lo hi r =
  match mod_ (advance r) (hi - lo + 1) with
  | Return y => (Return (lo + y), advance r)
  | Raise e => (Raise e, advance r)
  end.
Proof. reflexivity. Qed.

Lemma randint_nonzero (lo hi : Z) (r : register) :
  hi - lo + 1 <> 0 ->
  _randint lo hi r =
  (Return (lo + advance r mod (hi - lo + 1)), advance r).
Proof.
  intros H; rewrite randint_unfold; unfold mod_.
  destruct (Z.eqb_spec (hi - lo + 1) 0); [contradiction | reflexivity].
Qed.

Lemma randint_zero (lo hi : Z) (r : register) :
  hi - lo + 1 = 0 ->
  _randint lo hi r = (Raise ZeroDivisionError, advance r).
Proof.
  intros H; rewrite randint_unfold; unfold mod_.
  destruct (Z.eqb_spec (hi - lo + 1) 0); [reflexivity | contradiction].
Qed.

Lemma randint_register (lo hi : Z) (r : register) :
  snd (_randint lo hi r) = advance r.
Proof.
  rewrite randint_unfold.
  now destruct (mod_ (advance r) (hi - lo + 1)).
Qed.

Lemma randint_raises (lo hi : Z) (r : register) (e : exn) :
  fst (_randint lo hi r) = Raise e -> e = ZeroDivisionError.
Proof.
  destruct (Z.eq_dec (hi - lo + 1) 0) as [H | H].
  - rewrite (randint_zero _ _ _ H); simpl; congruence.
  - rewrite (randint_nonzero _ _ _ H); simpl; discriminate.
Qed.

Lemma len_pos {A} (seq : list A) : seq <> [] -> 0 < len seq.
Proof. destruct seq; [congruence | unfold len; simpl; lia]. Qed.

Lemma choice_empty {A} (r : register) :
  _choice (@nil A) r = (Raise ZeroDivisionError, advance r).
Proof.
  unfold _choice, bind.
  now rewrite randint_zero by reflexivity.
Qed.

Lemma choice_nonempty {A} (seq : list A) (r : register) :
  seq <> [] ->
  exists x,
    _choice seq r = (Return x, advance r) /\
    nth_error seq (Z.to_nat (advance r mod len seq)) = Some x.
Proof.
  intros Hne; pose proof (len_pos seq Hne) as Hlen.
  unfold _choice, bind.
  rewrite randint_nonzero by lia.
  replace (len seq - 1 - 0 + 1) with (len seq) by lia.
  pose proof (Z.mod_pos_bound (advance r) (len seq) Hlen) as Hi.
  set (i := advance r mod len seq) in *.
  destruct (nth_error seq (Z.to_nat i)) as [x |] eqn:Hx.
  - exists x; split; [| reflexivity].
    unfold lift, getitem; simpl (0 + i).
    assert (Hlt : (i <? 0) = false) by (apply Z.ltb_ge; lia).
    now rewrite !Hlt, Hx.
  - apply nth_error_None in Hx; unfold len in *; lia.
Qed.

Lemma choice_register {A} (seq : list A) (r : register) :
  snd (_choice seq r) = advance r.
Proof.
  destruct seq as [| x seq].
  - now rewrite choice_empty.
  - destruct (choice_nonempty (x :: seq) r) as (y & -> & _);
      [discriminate | reflexivity].
Qed.

Lemma choice_member {A} (seq : list A) (r : register) (x : A) :
  fst (_choice seq r) = Return x -> In x seq.
Proof.
  destruct seq as [| y seq].
  - rewrite choice_empty; discriminate.
  - destruct (choice_nonempty (y :: seq) r) as (z & -> & Hz);
      [discriminate |].
    intros [= <-]; eapply nth_error_In, Hz.
Qed.

(** A comprehension whose body is [_choice] on a non-empty sequence: one
    call, hence one step of the register, per element of the iterable. *)
Lemma comprehension_choice {I A} (P : list A) (it : list I) (r : register) :
  P <> [] ->
  exists l,
    comprehension (fun _ => _choice P) it r
    = (Return l, advance_n (List.length it) r) /\
    List.length l = List.length it /\
    forall i x, nth_error l i = Some x ->
                _choice P (advance_n i r) = (Return x, advance_n (S i) r).
Proof.
  intros Hne; revert r; induction it as [| j it IH]; intros r.
  - exists []; repeat split; intros [| i] x; discriminate.
  - destruct (choice_nonempty P r Hne) as (y & Hy & _).
    destruct (IH (advance r)) as (l & Hl & Hlen & Hnth).
    exists (y :: l); repeat split.
    + simpl comprehension; unfold bind at 1; rewrite Hy.
      unfold bind at 1; rewrite Hl.
      unfold ret; simpl List.length; now rewrite advance_n_shift.
    + simpl; now rewrite Hlen.
    + intros [| i] x Hx.
      * injection Hx as <-; exact Hy.
      * rewrite <- (advance_n_shift (S i)), <- (advance_n_shift i).
        now apply Hnth.
Qed.

Lemma length_xrange (k : Z) : List.length (xrange k) = Z.to_nat k.
Proof. unfold xrange; now rewrite length_map, length_seq. Qed.

Lemma sample_empty {A} (k : Z) (r : register) :
  0 < k -> _sample (@nil A) k r = (Raise ZeroDivisionError, advance r).
Proof.
  intros Hk; unfold _sample, xrange.
  destruct (Z.to_nat k) as [| n] eqn:Hn; [lia |].
  simpl; unfold bind at 1; now rewrite choice_empty.
Qed.

Lemma sample_nothing {A} (P : list A) (k : Z) (r : register) :
  k <= 0 -> _sample P k r = (Return [], r).
Proof.
  intros Hk; unfold _sample, xrange.
  now replace (Z.to_nat k) with 0%nat by lia.
Qed.

End GeneratorFacts.

(** ** Determinism and the concrete scenario *)

Lemma draws_stream (args : list (Z * Z)) (r : register) :
  Forall (fun p => fst p <= snd p) args ->
  draws args r = (Return (stream r args), advance_n (List.length args) r).
Proof.
  intros Hargs; revert r.
  induction Hargs as [| [lo hi] args Hle _ IH]; intros r; [reflexivity |].
  simpl in Hle; unfold draws in *; simpl comprehension.
  unfold Gen.bind at 1; simpl fst; simpl snd.
  rewrite randint_nonzero by lia.
  unfold Gen.bind at 1; rewrite IH.
  unfold ret; simpl List.length; now rewrite advance_n_shift.
Qed.

Lemma length_stream (args : list (Z * Z)) (r : register) :
  List.length (stream r args) = List.length args.
Proof.
  revert r; induction args as [| [lo hi] args IH]; intros r; simpl;
    [reflexivity | now rewrite IH].
Qed.

(** C1.  Determinism: whatever the register held before (in whichever run
    of the program), [seed(s)] followed by draws [randint(a, b)] with
    [a <= b] returns one and the same sequence, with one integer per draw;
    that sequence is [stream s args], a function of the seed and of the
    arguments of the draws alone. *)
Theorem session_deterministic
  (s : Z) (args : list (Z * Z)) (run1 run2 : register) :
  Forall (fun p => fst p <= snd p) args ->
  session s args run1 = session s args run2 /\
  fst (session s args run1) = Return (stream s args) /\
  List.length (stream s args) = List.length args.
Proof.
  intros Hargs; unfold session, Gen.bind, _seed.
  rewrite (draws_stream args s Hargs).
  repeat split; apply length_stream.
Qed.

Lemma session_deterministic_witness :
  Forall (fun p => fst p <= snd p) [(0, 16777215); (1, 6); (1, 6)] /\
  session 7 [(0, 16777215); (1, 6); (1, 6)] 0
  = session 7 [(0, 16777215); (1, 6); (1, 6)] 12345 /\
  fst (session 7 [(0, 16777215); (1, 6); (1, 6)] 0)
  = Return (stream 7 [(0, 16777215); (1, 6); (1, 6)]) /\
  List.length (stream 7 [(0, 16777215); (1, 6); (1, 6)]) = 3%nat.
Proof.
  assert (H : Forall (fun p : Z * Z => fst p <= snd p)
                [(0, 16777215); (1, 6); (1, 6)])
    by (repeat constructor; simpl; lia).
  split; [exact H |].
  exact (session_deterministic 7 [(0, 16777215); (1, 6); (1, 6)] 0 12345 H).
Defined.

(** C2.  After [seed(0)] the first update of the register gives
    [(1140671485 * 0 + 128201163) mod 16777216 = 10760651], and
    [randint(0, 16777215)] called right after the seeding returns
    10760651. *)
Theorem seed0_first_draw (prior : register) :
  let r := snd (_seed 0 prior) in
  r = 0 /\
  _lcg r = (Return 10760651, 10760651) /\
  (1140671485 * 0 + 128201163) mod 16777216 = 10760651 /\
  _randint 0 16777215 r = (Return 10760651, 10760651) /\
  fst (session 0 [(0, 16777215)] prior) = Return [10760651].
Proof. repeat split. Qed.

(** ** Range containment *)

(** C3.  For [a <= b] and any content of the register, [randint(a, b)]
    returns a value, and that value lies in the closed interval
    [[a, b]]. *)
Theorem randint_in_range (a b : Z) (r : register) :
  a <= b ->
  exists v, fst (_randint a b r) = Return v /\ a <= v <= b.
Proof.
  intros Hab; rewrite randint_nonzero by lia.
  eexists; split; [reflexivity |].
  pose proof (Z.mod_pos_bound (advance r) (b - a + 1)); lia.
Qed.

Lemma randint_in_range_witness :
  exists v, fst (_randint 1 6 _rand0) = Return v /\ 1 <= v <= 6.
Proof. apply (randint_in_range 1 6 _rand0); lia. Defined.

(** ** The domain of the register *)

(** C5, as stated, fails: [seed(2 ** 24)] stores [2 ** 24] itself, not
    [2 ** 24 mod 2 ** 24 = 0], and the register then holds a value outside
    [[0, 2 ** 24)]. *)
Lemma seed_stores_raw_value :
  snd (_seed 16777216 _rand0) = 16777216 /\
  snd (_seed 16777216 _rand0) <> 16777216 mod 2 ^ 24 /\
  ~ in_domain (snd (_seed 16777216 _rand0)).
Proof.
  repeat split; [discriminate |].
  unfold in_domain; simpl; lia.
Qed.

(** C5, amended.  Every update by the recurrence leaves the register in
    [[0, 2 ** 24)], and so does every draw built on it ([_lcg],
    [randint], [choice]; [sample] either leaves the register alone or
    leaves it in the domain); the value [_lcg] returns is the register.
    [seed(value)] stores [value] as it is; the reduction happens at the
    next update, which gives what it would give from [value mod 2 ** 24]. *)
Theorem register_domain_after_update (r : register) :
  (exists v, _lcg r = (Return v, v) /\ in_domain v) /\
  (forall a b, in_domain (snd (_randint a b r))) /\
  (forall (A : Type) (seq : list A), in_domain (snd (_choice seq r))) /\
  (forall (A : Type) (population : list A) k,
      snd (_sample population k r) = r \/
      in_domain (snd (_sample population k r))) /\
  (forall seed, snd (_seed seed r) = seed /\
                _lcg (snd (_seed seed r)) = _lcg (seed mod 2 ^ 24)).
Proof.
  split; [| split; [| split; [| split]]].
  - exists (advance r); split; [apply lcg_eq | apply advance_in_domain].
  - intros a b; rewrite randint_register; apply advance_in_domain.
  - intros A seq; rewrite choice_register; apply advance_in_domain.
  - intros A population k.
    destruct (Z.le_gt_cases k 0) as [Hk | Hk].
    + left; now rewrite sample_nothing.
    + right; destruct population as [| x population].
      * rewrite sample_empty by lia; apply advance_in_domain.
      * unfold _sample.
        destruct (comprehension_choice (x :: population) (xrange k) r)
          as (l & -> & _); [discriminate |].
        rewrite length_xrange; simpl snd.
        destruct (Z.to_nat k) as [| n] eqn:Hn; [lia |].
        apply advance_in_domain.
  - intros seed; split; [reflexivity |].
    simpl snd; rewrite !lcg_eq.
    change (2 ^ 24) with m; now rewrite advance_mod.
Qed.

(** ** Failures of the draws *)

(** C6, as stated, fails: [randint(5, 0)] raises nothing, it returns 4. *)
Lemma randint_reversed_bounds_returns :
  5 > 0 /\
  fst (_randint 5 0 _rand0) = Return 4 /\
  fst (_randint 5 0 _rand0) <> Raise RangeOrderError.
Proof. repeat split; discriminate. Qed.

(** C6, amended.  [randint(a, b)] returns a value of [[a, b]] whenever
    [a <= b].  There is no check of the order of the bounds: for
    [a = b + 1] the call raises [ZeroDivisionError] (after the register
    was updated), and for [a > b + 1] it raises nothing and returns a
    value of [[b + 2, a]]. *)
Theorem randint_outcomes (a b : Z) (r : register) :
  (a <= b ->
   exists v, _randint a b r = (Return v, advance r) /\ a <= v <= b) /\
  (a = b + 1 ->
   _randint a b r = (Raise ZeroDivisionError, advance r)) /\
  (a > b + 1 ->
   exists v, _randint a b r = (Return v, advance r) /\ b + 2 <= v <= a).
Proof.
  split; [| split]; intros Hab.
  - rewrite randint_nonzero by lia.
    eexists; split; [reflexivity |].
    pose proof (Z.mod_pos_bound (advance r) (b - a + 1)); lia.
  - apply randint_zero; lia.
  - rewrite randint_nonzero by lia.
    eexists; split; [reflexivity |].
    pose proof (Z.mod_neg_bound (advance r) (b - a + 1)); lia.
Qed.

Lemma randint_outcomes_witness :
  (exists v, _randint 1 6 _rand0 = (Return v, advance _rand0) /\
             1 <= v <= 6) /\
  _randint 1 0 _rand0 = (Raise ZeroDivisionError, advance _rand0) /\
  (exists v, _randint 5 0 _rand0 = (Return v, advance _rand0) /\
             0 + 2 <= v <= 5).
Proof.
  split; [| split].
  - apply (proj1 (randint_outcomes 1 6 _rand0)); lia.
  - apply (proj1 (proj2 (randint_outcomes 1 0 _rand0))); reflexivity.
  - apply (proj2 (proj2 (randint_outcomes 5 0 _rand0))); lia.
Defined.

(** C7, as stated, fails: [choice] on the empty sequence raises
    [ZeroDivisionError], the exception of [randint(0, -1)], and so does
    [sample] on it; neither raises an error of its own. *)
Lemma choice_empty_raises_ZeroDivisionError :
  fst (_choice (@nil Z) _rand0) = Raise ZeroDivisionError /\
  fst (_choice (@nil Z) _rand0) <> Raise EmptyDomainError /\
  fst (_sample (@nil Z) 1 _rand0) = Raise ZeroDivisionError /\
  fst (_sample (@nil Z) 1 _rand0) <> Raise EmptyDomainError.
Proof. repeat split; discriminate. Qed.

(** C7, amended.  [choice(seq)] fails whenever [seq] is empty, and
    [sample(population, k)] fails whenever [population] is empty and
    [k > 0]; the exception is the [ZeroDivisionError] of the draw
    underneath.  On a non-empty sequence neither raises. *)
Theorem choice_sample_failures
  (A : Type) (seq : list A) (k : Z) (r : register) :
  (seq = [] -> fst (_choice seq r) = Raise ZeroDivisionError) /\
  (seq = [] -> 0 < k -> fst (_sample seq k r) = Raise ZeroDivisionError) /\
  (seq <> [] -> exists x, fst (_choice seq r) = Return x) /\
  (seq <> [] -> exists l, fst (_sample seq k r) = Return l).
Proof.
  split; [| split; [| split]].
  - intros ->; now rewrite choice_empty.
  - intros -> Hk; now rewrite sample_empty.
  - intros Hne; destruct (choice_nonempty seq r Hne) as (x & -> & _).
    now exists x.
  - intros Hne; unfold _sample.
    destruct (comprehension_choice seq (xrange k) r Hne) as (l & -> & _).
    now exists l.
Qed.

Lemma choice_sample_failures_witness :
  fst (_choice (@nil Z) _rand0) = Raise ZeroDivisionError /\
  fst (_sample (@nil Z) 2 _rand0) = Raise ZeroDivisionError /\
  (exists x, fst (_choice [10; 20; 30] _rand0) = Return x) /\
  (exists l, fst (_sample [10; 20; 30] 2 _rand0) = Return l).
Proof.
  split; [| split; [| split]].
  - apply (proj1 (choice_sample_failures Z [] 2 _rand0)); reflexivity.
  - apply (proj1 (proj2 (choice_sample_failures Z [] 2 _rand0)));
      [reflexivity | lia].
  - apply (proj1 (proj2 (proj2
             (choice_sample_failures Z [10; 20; 30] 2 _rand0))));
      discriminate.
  - apply (proj2 (proj2 (proj2
             (choice_sample_failures Z [10; 20; 30] 2 _rand0))));
      discriminate.
Defined.

(** ** What a failed operation leaves behind *)

(** C8, as stated, fails: [randint(1, 0)] raises, and the register, 0
    before the call, holds 10760651 after it. *)
Lemma failed_randint_advances_register :
  fst (_randint 1 0 _rand0) = Raise ZeroDivisionError /\
  snd (_randint 1 0 _rand0) = 10760651 /\
  snd (_randint 1 0 _rand0) <> _rand0.
Proof. repeat split; discriminate. Qed.

Lemma sample_raises {A} (population : list A) (k : Z) (r : register)
  (e : exn) :
  fst (_sample population k r) = Raise e ->
  population = [] /\ 0 < k.
Proof.
  intros He; destruct population as [| x population].
  - split; [reflexivity |].
    destruct (Z.le_gt_cases k 0) as [Hk | Hk]; [| lia].
    rewrite sample_nothing in He by assumption; discriminate.
  - unfold _sample in He.
    destruct (comprehension_choice (x :: population) (xrange k) r)
      as (l & Hl & _); [discriminate |].
    rewrite Hl in He; discriminate.
Qed.

(** C8, amended.  [seed] never fails.  When [randint], [choice] or
    [sample] fails, the exception is [ZeroDivisionError], raised after
    the update of the register: the register is one step of the
    recurrence further than before the call, not as it was. *)
Theorem failure_after_one_update (e : exn) (r : register) :
  (forall s, fst (_seed s r) <> Raise e) /\
  (forall a b,
      fst (_randint a b r) = Raise e ->
      e = ZeroDivisionError /\ snd (_randint a b r) = advance r) /\
  (forall (A : Type) (seq : list A),
      fst (_choice seq r) = Raise e ->
      e = ZeroDivisionError /\ snd (_choice seq r) = advance r) /\
  (forall (A : Type) (population : list A) k,
      fst (_sample population k r) = Raise e ->
      e = ZeroDivisionError /\ snd (_sample population k r) = advance r).
Proof.
  split; [| split; [| split]].
  - intros s; discriminate.
  - intros a b He; split;
      [eapply randint_raises, He | apply randint_register].
  - intros A seq He; split; [| apply choice_register].
    destruct seq as [| x seq].
    + rewrite choice_empty in He; simpl in He; congruence.
    + destruct (choice_nonempty (x :: seq) r) as (y & Hy & _);
        [discriminate |].
      rewrite Hy in He; discriminate.
  - intros A population k He.
    destruct (sample_raises _ _ _ _ He) as [-> Hk].
    rewrite sample_empty in * by assumption; simpl in *.
    split; congruence.
Qed.

Lemma failure_after_one_update_witness :
  (ZeroDivisionError = ZeroDivisionError /\
   snd (_randint 1 0 _rand0) = advance _rand0) /\
  (ZeroDivisionError = ZeroDivisionError /\
   snd (_choice (@nil Z) _rand0) = advance _rand0) /\
  (ZeroDivisionError = ZeroDivisionError /\
   snd (_sample (@nil Z) 3 _rand0) = advance _rand0).
Proof.
  pose proof (failure_after_one_update ZeroDivisionError _rand0)
    as (_ & Hrandint & Hchoice & Hsample).
  split; [| split].
  - apply (Hrandint 1 0); reflexivity.
  - apply (Hchoice Z []); reflexivity.
  - apply (Hsample Z [] 3); reflexivity.
Defined.

(** ** The shape of a sample *)

(** C9.  For a non-empty population [P] and [k >= 0], [sample(P, k)]
    returns a list of length [k] whose elements all belong to [P]; its
    element of index [i] is what the call of [choice(P)] number [i]
    returns, each call moving the register one step, so that the register
    ends [k] steps further. *)
Theorem sample_shape
  (A : Type) (P : list A) (k : Z) (r : register) :
  P <> [] ->
  0 <= k ->
  exists l,
    _sample P k r = (Return l, advance_n (Z.to_nat k) r) /\
    len l = k /\
    (forall x, In x l -> In x P) /\
    (forall i x, nth_error l i = Some x ->
                 _choice P (advance_n i r)
                 = (Return x, advance_n (S i) r)).
Proof.
  intros Hne Hk; unfold _sample.
  destruct (comprehension_choice P (xrange k) r Hne)
    as (l & Hl & Hlen & Hnth).
  rewrite length_xrange in Hl, Hlen.
  exists l; split; [exact Hl |]; split; [unfold len; lia |].
  split; [| exact Hnth].
  intros x Hx; apply In_nth_error in Hx as [i Hi].
  apply (choice_member P (advance_n i r)).
  now rewrite (Hnth i x Hi).
Qed.

Lemma sample_shape_witness :
  exists l,
    _sample [10; 20; 30] 5 _rand0
    = (Return l, advance_n (Z.to_nat 5) _rand0) /\
    len l = 5 /\
    (forall x, In x l -> In x [10; 20; 30]) /\
    (forall i x, nth_error l i = Some x ->
                 _choice [10; 20; 30] (advance_n i _rand0)
                 = (Return x, advance_n (S i) _rand0)).
Proof.
  apply (sample_shape Z [10; 20; 30] 5 _rand0); [discriminate | lia].
Defined.

(** Sampling is with replacement: an element can come more than once,
    and a sample can be longer than the population. *)
Example sample_repeats :
  fst (_sample [10; 20; 30] 5 _rand0) = Return [30; 30; 10; 10; 10].
Proof. reflexivity. Qed.

(** * Properties of the error handler *)

(** What the private-area branch does with one byte: the template
    ['000f00%2x'] pads a one-digit value with a space, and [int] refuses
    the result. *)
Lemma private_area_char_spec (b : byte) :
  private_area_char b =
  if ord b <? 16 then Raise ValueError else Return [basePoint + ord b].
Proof. destruct b; vm_compute; reflexivity. Qed.

Lemma join_private_area_high (span : list byte) :
  Forall (fun b => 16 <= ord b) span ->
  join private_area_char span
  = Return (map (fun b => basePoint + ord b) span).
Proof.
  induction 1 as [| b span Hb _ IH]; [reflexivity |].
  simpl join; rewrite private_area_char_spec.
  destruct (Z.ltb_spec (ord b) 16); [lia |].
  simpl Py.bind; now rewrite IH.
Qed.

Lemma join_private_area_low (span : list byte) :
  Exists (fun b => ord b < 16) span ->
  join private_area_char span = Raise ValueError.
Proof.
  induction span as [| b span IH]; intros Hex;
    [inversion Hex |].
  simpl join; rewrite private_area_char_spec.
  destruct (Z.ltb_spec (ord b) 16) as [Hlow | Hhigh]; [reflexivity |].
  inversion Hex as [? ? Hb | ? ? Htl]; subst; [lia |].
  simpl Py.bind; now rewrite (IH Htl).
Qed.

(** C4.  The handler does not give byte [0x00] the code point
    [0x0F0000]: on a failing span that consists of that byte it raises
    [ValueError], in the private-area mode and whatever the template of
    the other mode is. *)
Theorem private_area_byte00_raises (template : Z -> outcome text) :
  _reversible true template
    {| object := ["000"%byte]; start := 0; end_ := 1 |}
  = Raise ValueError.
Proof. reflexivity. Qed.

(** C10.  In the private-area mode the handler raises [ValueError] on
    every failing span that contains a byte below [0x10]; on a span whose
    bytes are all [0x10] or more it returns the string of the code points
    [0x0F0000 + v], one per byte [v] and in the order of the bytes,
    together with [ex.end]. *)
Theorem reversible_private_area
  (template : Z -> outcome text) (ex : UnicodeDecodeError) :
  let span := slice (object ex) (start ex) (end_ ex) in
  (Exists (fun b => ord b < 16) span ->
   _reversible true template ex = Raise ValueError) /\
  (Forall (fun b => 16 <= ord b) span ->
   _reversible true template ex
   = Return (map (fun b => 983040 + ord b) span, end_ ex)).
Proof.
  intros span; unfold _reversible; fold span; split; intros Hspan.
  - now rewrite join_private_area_low.
  - now rewrite join_private_area_high.
Qed.

Lemma reversible_private_area_witness :
  _reversible true (fun _ => Raise ValueError)
    {| object := ["a"; "255"; "005"; "b"]%byte; start := 1; end_ := 3 |}
  = Raise ValueError /\
  _reversible true (fun _ => Raise ValueError)
    {| object := ["a"; "255"; "128"; "b"]%byte; start := 1; end_ := 3 |}
  = Return ([983295; 983168], 3).
Proof.
  split.
  - apply (proj1 (reversible_private_area (fun _ => Raise ValueError)
       {| object := ["a"; "255"; "005"; "b"]%byte; start := 1; end_ := 3 |})).
    vm_compute; apply Exists_cons_tl, Exists_cons_hd; reflexivity.
  - apply (proj2 (reversible_private_area (fun _ => Raise ValueError)
       {| object := ["a"; "255"; "128"; "b"]%byte; start := 1; end_ := 3 |})).
    vm_compute; repeat constructor; discriminate.
Defined.

(** * Further properties of the generator *)

(** [choice] on a non-empty sequence returns the element at index
    [register' mod len(seq)], where [register'] is the register after
    its one update; the element belongs to the sequence. *)
Theorem choice_returns_member
  (A : Type) (seq : list A) (r : register) :
  seq <> [] ->
  exists x,
    _choice seq r = (Return x, advance r) /\
    getitem seq (advance r mod len seq) = Return x /\
    In x seq.
Proof.
  intros Hne; destruct (choice_nonempty seq r Hne) as (x & Hx & Hnth).
  exists x; split; [exact Hx |]; split; [| eapply nth_error_In, Hnth].
  pose proof (Z.mod_pos_bound (advance r) (len seq) (len_pos seq Hne)).
  unfold getitem.
  assert (Hlt : (advance r mod len seq <? 0) = false)
    by (apply Z.ltb_ge; lia).
  now rewrite !Hlt, Hnth.
Qed.

Lemma choice_returns_member_witness :
  exists x,
    _choice [10; 20; 30] _rand0 = (Return x, advance _rand0) /\
    getitem [10; 20; 30] (advance _rand0 mod len [10; 20; 30]) = Return x /\
    In x [10; 20; 30].
Proof. apply (choice_returns_member Z [10; 20; 30] _rand0); discriminate. Defined.

(** [randint(a, a)] returns [a], and the register is updated all the
    same. *)
Theorem randint_degenerate (lo : Z) (r : register) :
  _randint lo lo r = (Return lo, advance r).
Proof.
  rewrite randint_nonzero by lia.
  replace (lo - lo + 1) with 1 by lia.
  now rewrite Z.mod_1_r, Z.add_0_r.
Qed.

(** [sample(population, k)] with [k <= 0] returns the empty list without
    touching the register, on an empty population too: a negative [k] is
    not refused. *)
Theorem sample_nonpositive
  (A : Type) (population : list A) (k : Z) (r : register) :
  k <= 0 -> _sample population k r = (Return [], r).
Proof. apply sample_nothing. Qed.

Lemma sample_nonpositive_witness :
  _sample (@nil Z) (-3) 5 = (Return [], 5).
Proof. apply (sample_nonpositive Z [] (-3) 5); lia. Defined.

Lemma comprehension_app {I A} (body : I -> gen A) (it1 it2 : list I)
  (r : register) :
  comprehension body (it1 ++ it2) r =
  Gen.bind (comprehension body it1) (fun l1 =>
  Gen.bind (comprehension body it2) (fun l2 =>
  ret (l1 ++ l2))) r.
Proof.
  revert r; induction it1 as [| i it1 IH]; intros r.
  - simpl; unfold Gen.bind, ret.
    now destruct (comprehension body it2 r) as [[l2 | e] r2].
  - simpl; unfold Gen.bind, ret.
    destruct (body i r) as [[x | e] r1]; [| reflexivity].
    rewrite IH; unfold Gen.bind, ret.
    destruct (comprehension body it1 r1) as [[l1 | e] r2]; [| reflexivity].
    now destruct (comprehension body it2 r2) as [[l2 | e] r3].
Qed.

Lemma comprehension_const {I J A} (body : gen A) (it1 : list I)
  (it2 : list J) (r : register) :
  List.length it1 = List.length it2 ->
  comprehension (fun _ => body) it1 r = comprehension (fun _ => body) it2 r.
Proof.
  revert it2 r; induction it1 as [| i it1 IH]; intros [| j it2] r Hlen;
    try discriminate; [reflexivity |].
  simpl; unfold Gen.bind, ret.
  destruct (body r) as [[x | e] r1]; [| reflexivity].
  now rewrite (IH it2 r1) by (simpl in Hlen; lia).
Qed.

(** Samples compose: a sample of [j + k] elements is a sample of [j]
    elements followed by a sample of [k] elements drawn from where the
    first left the register, failures included. *)
Theorem sample_add
  (A : Type) (population : list A) (j k : Z) (r : register) :
  0 <= j -> 0 <= k ->
  _sample population (j + k) r =
  Gen.bind (_sample population j) (fun l1 =>
  Gen.bind (_sample population k) (fun l2 =>
  ret (l1 ++ l2))) r.
Proof.
  intros Hj Hk; unfold _sample.
  rewrite <- comprehension_app.
  apply comprehension_const.
  rewrite length_app, !length_xrange; lia.
Qed.

Lemma sample_add_witness :
  _sample [10; 20; 30] (2 + 3) _rand0 =
  Gen.bind (_sample [10; 20; 30] 2) (fun l1 =>
  Gen.bind (_sample [10; 20; 30] 3) (fun l2 =>
  ret (l1 ++ l2))) _rand0.
Proof. apply (sample_add Z [10; 20; 30] 2 3 _rand0); lia. Defined.

Lemma draws_from_advance (p : Z * Z) (args : list (Z * Z))
  (r1 r2 : register) :
  advance r1 = advance r2 -> draws (p :: args) r1 = draws (p :: args) r2.
Proof.
  intros Hadv; unfold draws; simpl comprehension; unfold Gen.bind.
  now rewrite !randint_unfold, Hadv.
Qed.

(** Seeds that agree modulo [2 ** 24] start the same stream: a session
    of at least one draw gives the same results and leaves the same
    register, whatever the arguments of the draws. *)
Theorem session_seed_congruent
  (s1 s2 : Z) (args : list (Z * Z)) (r1 r2 : register) :
  s1 mod 2 ^ 24 = s2 mod 2 ^ 24 ->
  args <> [] ->
  session s1 args r1 = session s2 args r2.
Proof.
  intros Hs Hargs; destruct args as [| p args]; [congruence |].
  unfold session, Gen.bind, _seed.
  apply draws_from_advance.
  rewrite <- (advance_mod s1), <- (advance_mod s2).
  change m with (2 ^ 24); now rewrite Hs.
Qed.

Lemma session_seed_congruent_witness :
  session 5 [(1, 6); (3, 2); (0, 9)] 0
  = session (5 + 3 * 16777216) [(1, 6); (3, 2); (0, 9)] 77.
Proof.
  apply (session_seed_congruent 5 (5 + 3 * 16777216)
           [(1, 6); (3, 2); (0, 9)] 0 77);
    [reflexivity | discriminate].
Defined.

(** The lowest bit of the register flips at every update. *)
Lemma advance_parity (r : register) : advance r mod 2 = (r + 1) mod 2.
Proof.
  rewrite advance_eq.
  rewrite (Z.mod_mod_divide (a * r + c) m 2)
    by (exists (2 ^ 23); reflexivity).
  replace (a * r + c) with (r + 1 + (570335742 * r + 64100581) * 2)
    by (unfold a, c; ring).
  apply Z_mod_plus_full.
Qed.

(** Two values only: successive draws [randint(a, a + 1)] alternate, the
    same value never comes twice in a row. *)
Theorem randint_pair_alternates (lo : Z) (r : register) :
  exists v1 v2,
    _randint lo (lo + 1) r = (Return v1, advance r) /\
    _randint lo (lo + 1) (advance r) = (Return v2, advance (advance r)) /\
    v1 + v2 = 2 * lo + 1 /\
    v1 <> v2.
Proof.
  rewrite !randint_nonzero by lia.
  replace (lo + 1 - lo + 1) with 2 by lia.
  do 2 eexists; split; [reflexivity |]; split; [reflexivity |].
  rewrite (advance_parity (advance r)), <- (Zplus_mod_idemp_l (advance r)).
  pose proof (Z.mod_pos_bound (advance r) 2 ltac:(lia)) as Hb.
  assert (Hcase : advance r mod 2 = 0 \/ advance r mod 2 = 1) by lia.
  destruct Hcase as [-> | ->];
    [change ((0 + 1) mod 2) with 1 | change ((1 + 1) mod 2) with 0]; lia.
Qed.

(** ** The recurrence is a permutation with full period *)

Lemma retreat_advance (r : register) : retreat (advance r) = r mod m.
Proof.
  unfold retreat; rewrite advance_eq.
  rewrite <- Zmult_mod_idemp_r, Zminus_mod_idemp_l, Zmult_mod_idemp_r.
  replace (a_inv * (a * r + c - c)) with (r + (40960369 * r) * m)
    by (unfold a_inv, a, c, m; ring).
  apply Z_mod_plus_full.
Qed.

Lemma advance_retreat (r : register) : advance (retreat r) = r mod m.
Proof.
  unfold retreat; rewrite advance_eq.
  rewrite Zplus_mod, Zmult_mod_idemp_r, <- Zplus_mod.
  replace (a * (a_inv * (r - c)) + c) with (r + (40960369 * (r - c)) * m)
    by (unfold a_inv, a, c, m; ring).
  apply Z_mod_plus_full.
Qed.

(** The update permutes [[0, 2 ** 24)]: every value of the domain is the
    successor of exactly one value of the domain, so two different
    registers of the domain never meet. *)
Theorem advance_permutation (r : register) :
  in_domain r ->
  in_domain (retreat r) /\
  advance (retreat r) = r /\
  forall p, in_domain p -> advance p = r -> p = retreat r.
Proof.
  unfold in_domain; intros Hr; split; [| split].
  - unfold retreat; apply Z.mod_pos_bound; reflexivity.
  - rewrite advance_retreat; apply Z.mod_small; exact Hr.
  - intros p Hp <-; rewrite retreat_advance.
    symmetry; apply Z.mod_small; exact Hp.
Qed.

Lemma advance_permutation_witness :
  in_domain (retreat 10760651) /\
  advance (retreat 10760651) = 10760651 /\
  forall p, in_domain p -> advance p = 10760651 -> p = retreat 10760651.
Proof.
  apply (advance_permutation 10760651); unfold in_domain; lia.
Defined.

Lemma affine_mod (A C r : Z) :
  (A mod m * r + C mod m) mod m = (A * r + C) mod m.
Proof.
  rewrite (Zplus_mod_idemp_r C (A mod m * r) m).
  rewrite (Zplus_mod (A mod m * r) C m), (Zmult_mod_idemp_l A r m).
  now rewrite <- (Zplus_mod (A * r) C m).
Qed.

Lemma double_coef_step (n : nat) (A C : Z) :
  (forall r, advance_n n r = (A * r + C) mod m) ->
  forall r,
    advance_n (n + n) r = ((A * A) mod m * r + (A * C + C) mod m) mod m.
Proof.
  intros Hn r; unfold advance_n; rewrite Nat.iter_add; fold (advance_n n r).
  fold (advance_n n (advance_n n r)); rewrite (Hn (advance_n n r)), (Hn r).
  rewrite affine_mod.
  rewrite (Zplus_mod (A * _) C m), (Zmult_mod_idemp_r _ A m).
  rewrite <- (Zplus_mod (A * _) C m).
  f_equal; ring.
Qed.

Lemma double_coef_spec (k : nat) (r : register) :
  advance_n (2 ^ k) r
  = (fst (double_coef k) * r + snd (double_coef k)) mod m.
Proof.
  revert r; induction k as [| k IH]; intros r.
  - change (advance_n (2 ^ 0) r) with (advance r).
    rewrite advance_eq; cbv [double_coef fst snd].
    now rewrite affine_mod.
  - replace (2 ^ S k)%nat with (2 ^ k + 2 ^ k)%nat
      by (rewrite Nat.pow_succ_r'; lia).
    cbn [double_coef]; destruct (double_coef k) as [A C]; cbn [fst snd] in *.
    now apply double_coef_step.
Qed.

Lemma advance_n_2_24 (r : register) : advance_n (2 ^ 24) r = r mod m.
Proof.
  rewrite (double_coef_spec 24 r).
  replace (double_coef 24) with (1, 0) by (vm_compute; reflexivity).
  cbn [fst snd]; f_equal; ring.
Qed.

Lemma advance_n_2_23 (r : register) :
  advance_n (2 ^ 23) r = (r + 8388608) mod m.
Proof.
  rewrite (double_coef_spec 23 r).
  replace (double_coef 23) with (1, 8388608) by (vm_compute; reflexivity).
  cbn [fst snd]; f_equal; ring.
Qed.

Section Returns.

(** The numbers of steps after which the register is back at [r] are
    closed under sums, multiples, differences and greatest common
    divisors. *)
Variable r : register.

Lemma back_add (j k : nat) :
  advance_n j r = r -> advance_n k r = r -> advance_n (j + k) r = r.
Proof.
  unfold advance_n; intros Hj Hk.
  now rewrite Nat.iter_add, Hk, Hj.
Qed.

Lemma back_mul (j k : nat) :
  advance_n j r = r -> advance_n (k * j) r = r.
Proof.
  intros Hj; induction k as [| k IH]; [reflexivity |].
  now apply back_add.
Qed.

Lemma back_sub (j k : nat) :
  advance_n (j + k) r = r -> advance_n k r = r -> advance_n j r = r.
Proof.
  unfold advance_n; intros Hjk Hk.
  now rewrite Nat.iter_add, Hk in Hjk.
Qed.

Lemma back_gcd (j k : nat) :
  (0 < j)%nat -> advance_n j r = r -> advance_n k r = r ->
  advance_n (Nat.gcd j k) r = r.
Proof.
  intros Hpos Hj Hk.
  destruct (Nat.gcd_bezout_pos j k Hpos) as (u & v & Huv).
  apply (back_sub _ (v * k)); [| now apply back_mul].
  rewrite <- Huv; now apply back_mul.
Qed.

End Returns.

Lemma divisor_of_2_24 (g : nat) :
  Nat.divide g (2 ^ 24) -> (g < 2 ^ 24)%nat -> Nat.divide g (2 ^ 23).
Proof.
  intros [q Hq] Hlt.
  assert (Hdiv : (Z.of_nat g | 2 ^ 24)).
  { exists (Z.of_nat q).
    apply (f_equal Z.of_nat) in Hq.
    rewrite Nat2Z.inj_pow, Nat2Z.inj_mul in Hq; exact Hq. }
  assert (Hlt' : Z.of_nat g < 2 ^ 24).
  { apply Nat2Z.inj_lt in Hlt; rewrite Nat2Z.inj_pow in Hlt; exact Hlt. }
  destruct (Zdivide_power_2 (Z.of_nat g) 2 24) as [j Hj];
    [lia | lia | apply prime_alt, Z.prime_2 | exact Hdiv |].
  assert (Hj0 : 0 <= j).
  { destruct (Z.lt_ge_cases j 0) as [Hneg | Hge]; [| exact Hge].
    rewrite (Z.pow_neg_r 2 j Hneg) in Hj; lia. }
  assert (Hj24 : j < 24).
  { apply (Z.pow_lt_mono_r_iff 2); lia. }
  exists (Z.to_nat (2 ^ (23 - j))).
  assert (Hsplit : 2 ^ 23 = 2 ^ (23 - j) * 2 ^ j).
  { rewrite <- Z.pow_add_r by lia; f_equal; lia. }
  assert (Hpos : 0 < 2 ^ (23 - j)) by (apply Z.pow_pos_nonneg; lia).
  apply Nat2Z.inj.
  rewrite Nat2Z.inj_mul, Z2Nat.id, Hj by lia.
  rewrite Nat2Z.inj_pow; exact Hsplit.
Qed.

(** The recurrence has full period: from a register of the domain, it
    takes [2 ** 24] updates to come back to that register, and no smaller
    positive number of updates does. *)
Theorem advance_full_period (r : register) :
  in_domain r ->
  advance_n (2 ^ 24) r = r /\
  forall n, (0 < n < 2 ^ 24)%nat -> advance_n n r <> r.
Proof.
  intros Hr.
  assert (Hfull : advance_n (2 ^ 24) r = r)
    by (rewrite advance_n_2_24; apply Z.mod_small; exact Hr).
  split; [exact Hfull |].
  intros n [Hpos Hlt] Hn.
  pose proof (back_gcd r n (2 ^ 24) Hpos Hn Hfull) as Hg.
  assert (Hdiv : Nat.divide (Nat.gcd n (2 ^ 24)) (2 ^ 23)).
  { apply divisor_of_2_24; [apply Nat.gcd_divide_r |].
    apply Nat.le_lt_trans with n; [| exact Hlt].
    apply Nat.divide_pos_le; [lia | apply Nat.gcd_divide_l]. }
  destruct Hdiv as [q Hq].
  pose proof (back_mul r _ q Hg) as Hhalf.
  rewrite <- Hq, advance_n_2_23 in Hhalf.
  unfold in_domain, m in *.
  destruct (Z.lt_ge_cases r 8388608) as [Hlow | Hhigh].
  - rewrite Z.mod_small in Hhalf; lia.
  - replace (r + 8388608) with (r - 8388608 + 1 * 2 ^ 24) in Hhalf by lia.
    rewrite Z_mod_plus_full, Z.mod_small in Hhalf; lia.
Qed.

Lemma advance_full_period_witness :
  advance_n (2 ^ 24) 5 = 5 /\
  forall n, (0 < n < 2 ^ 24)%nat -> advance_n n 5 <> 5.
Proof. apply (advance_full_period 5); unfold in_domain; lia. Defined.

(** ** What a draw can and cannot return *)

(** A range of at most [2 ** 24] values is covered: for [a <= v <= b]
    with [b - a < 2 ** 24] there is a register of the domain from which
    [randint(a, b)] returns [v]. *)
Theorem randint_reaches_every_value (lo hi v : Z) :
  lo <= v <= hi ->
  hi - lo < 2 ^ 24 ->
  exists r, in_domain r /\ fst (_randint lo hi r) = Return v.
Proof.
  intros Hv Hsize.
  exists (retreat (v - lo)); split.
  - unfold in_domain, retreat; apply Z.mod_pos_bound; reflexivity.
  - rewrite randint_nonzero by lia; cbn [fst].
    rewrite advance_retreat; unfold m.
    rewrite (Z.mod_small (v - lo) (2 ^ 24)) by lia.
    rewrite Z.mod_small by lia; f_equal; lia.
Qed.

Lemma randint_reaches_every_value_witness :
  exists r, in_domain r /\ fst (_randint 1 6 r) = Return 4.
Proof. apply (randint_reaches_every_value 1 6 4); lia. Defined.

(** A draw never goes [2 ** 24] or more above its lower bound: in a
    range of more than [2 ** 24] values, those from [a + 2 ** 24] on are
    never returned. *)
Theorem randint_below_modulus (lo hi v : Z) (r : register) :
  lo <= hi ->
  fst (_randint lo hi r) = Return v ->
  lo <= v < lo + 2 ^ 24 /\ v <= hi.
Proof.
  intros Hle; rewrite randint_nonzero by lia; cbn [fst]; intros [= <-].
  pose proof (advance_in_domain r) as Hd; unfold in_domain in Hd.
  pose proof (Z.mod_pos_bound (advance r) (hi - lo + 1) ltac:(lia)) as Hb.
  assert (Hmod : advance r mod (hi - lo + 1) <= advance r)
    by (apply Z.mod_le; lia).
  lia.
Qed.

Lemma randint_below_modulus_witness :
  0 <= 10760651 < 0 + 2 ^ 24 /\ 10760651 <= 4294967296.
Proof.
  apply (randint_below_modulus 0 4294967296 10760651 _rand0);
    [lia | reflexivity].
Defined.

(** * Further properties of the error handler *)

Lemma join_app {A} (piece : A -> outcome text) (l1 l2 : list A) :
  join piece (l1 ++ l2) =
  Py.bind (join piece l1) (fun s1 =>
  Py.bind (join piece l2) (fun s2 => Return (s1 ++ s2))).
Proof.
  induction l1 as [| x l1 IH]; cbn [app join Py.bind].
  - now destruct (join piece l2).
  - destruct (piece x) as [s | e]; cbn [Py.bind]; [| reflexivity].
    rewrite IH.
    destruct (join piece l1) as [s1 | e]; cbn [Py.bind]; [| reflexivity].
    destruct (join piece l2) as [s2 | e]; cbn [Py.bind]; [| reflexivity].
    now rewrite app_assoc.
Qed.

Lemma join_total {A} (piece : A -> outcome text) (t : A -> text)
  (l : list A) :
  (forall x, In x l -> piece x = Return (t x)) ->
  join piece l = Return (List.concat (map t l)).
Proof.
  induction l as [| x l IH]; intros Hl; [reflexivity |].
  cbn [join map List.concat].
  rewrite (Hl x) by (left; reflexivity); cbn [Py.bind].
  now rewrite IH by (intros y Hy; apply Hl; right; exact Hy).
Qed.

Lemma firstn_add {A} (p q : nat) (l : list A) :
  firstn (p + q) l = firstn p l ++ firstn q (skipn p l).
Proof.
  revert l; induction p as [| p IH]; intros [| x l]; cbn;
    try reflexivity.
  - now rewrite firstn_nil.
  - now rewrite IH.
Qed.

Lemma clamp_nonneg {A} (l : list A) (i : Z) :
  0 <= i -> clamp l i = Z.to_nat (Z.min i (len l)).
Proof.
  intros Hi; unfold clamp.
  now destruct (Z.ltb_spec i 0); [lia |].
Qed.

Lemma slice_split {A} (l : list A) (lo mid hi : Z) :
  0 <= lo <= mid -> mid <= hi ->
  slice l lo hi = slice l lo mid ++ slice l mid hi.
Proof.
  intros Hlo Hhi; unfold slice.
  rewrite !clamp_nonneg by lia.
  set (x := Z.to_nat (Z.min lo (len l))).
  set (y := Z.to_nat (Z.min mid (len l))).
  set (z := Z.to_nat (Z.min hi (len l))).
  assert (Hxy : (x <= y)%nat) by (unfold x, y; lia).
  assert (Hyz : (y <= z)%nat) by (unfold y, z; lia).
  replace (z - x)%nat with ((y - x) + (z - y))%nat by lia.
  rewrite firstn_add, skipn_skipn.
  now replace (y - x + x)%nat with y by lia.
Qed.

Lemma slice_empty {A} (l : list A) (lo hi : Z) :
  0 <= lo -> 0 <= hi -> hi <= lo \/ len l <= lo -> slice l lo hi = [].
Proof.
  intros Hlo Hhi Hcase; unfold slice.
  rewrite !clamp_nonneg by lia.
  replace (Z.to_nat (Z.min hi (len l)) - Z.to_nat (Z.min lo (len l)))%nat
    with 0%nat by lia.
  reflexivity.
Qed.

(** The handler on an empty span: when [ex.end <= ex.start], or when
    [ex.start] is at the end of the bytes or beyond, it returns the empty
    string and [ex.end], in either mode, and the template is not used. *)
Theorem reversible_empty_span
  (mode : bool) (template : Z -> outcome text) (ex : UnicodeDecodeError) :
  0 <= start ex -> 0 <= end_ ex ->
  end_ ex <= start ex \/ len (object ex) <= start ex ->
  _reversible mode template ex = Return ([], end_ ex).
Proof.
  intros Hs He Hcase; unfold _reversible.
  rewrite (slice_empty _ _ _ Hs He Hcase).
  now destruct mode.
Qed.

Lemma reversible_empty_span_witness :
  _reversible true (fun _ => Raise ValueError)
    {| object := ["000"; "001"]%byte; start := 1; end_ := 1 |}
  = Return ([], 1) /\
  _reversible false (fun _ => Raise ValueError)
    {| object := ["000"; "001"]%byte; start := 2; end_ := 5 |}
  = Return ([], 5).
Proof.
  split.
  - apply (reversible_empty_span true (fun _ => Raise ValueError)
      {| object := ["000"; "001"]%byte; start := 1; end_ := 1 |});
      cbn; lia.
  - apply (reversible_empty_span false (fun _ => Raise ValueError)
      {| object := ["000"; "001"]%byte; start := 2; end_ := 5 |});
      cbn; lia.
Defined.

(** The handler on a span cut in two: when it returns on
    [object[lo:mid]] and on [object[mid:hi]], it returns on
    [object[lo:hi]] the concatenation of the two strings, with [hi] as
    offset.  Every byte is used once, in either mode. *)
Theorem reversible_split
  (mode : bool) (template : Z -> outcome text) (bytes : list byte)
  (lo mid hi : Z) (s1 s2 : text) (o1 o2 : Z) :
  0 <= lo <= mid -> mid <= hi ->
  _reversible mode template {| object := bytes; start := lo; end_ := mid |}
  = Return (s1, o1) ->
  _reversible mode template {| object := bytes; start := mid; end_ := hi |}
  = Return (s2, o2) ->
  _reversible mode template {| object := bytes; start := lo; end_ := hi |}
  = Return (s1 ++ s2, hi).
Proof.
  intros Hlo Hhi; unfold _reversible; cbn [object start end_].
  rewrite (slice_split bytes lo mid hi Hlo Hhi).
  destruct mode; rewrite join_app;
    match goal with
    | |- context [join ?f (slice bytes lo mid)] =>
        destruct (join f (slice bytes lo mid)) as [t1 | e1];
        cbn [Py.bind]; [| discriminate];
        destruct (join f (slice bytes mid hi)) as [t2 | e2];
        cbn [Py.bind]; [| discriminate]
    end; now intros [= <- _] [= <- _].
Qed.

Lemma reversible_split_witness :
  _reversible true (fun _ => Raise ValueError)
    {| object := ["a"; "255"; "128"; "b"]%byte; start := 1; end_ := 3 |}
  = Return ([983295] ++ [983168], 3).
Proof.
  apply (reversible_split true (fun _ => Raise ValueError)
           ["a"; "255"; "128"; "b"]%byte 1 2 3 [983295] [983168] 2 3);
    [lia | lia | reflexivity | reflexivity].
Defined.

Lemma ord_bounds (b : byte) : 0 <= ord b <= 255.
Proof.
  unfold ord; pose proof (Byte.to_N_bounded b); lia.
Qed.

Lemma ord_inj (b1 b2 : byte) : ord b1 = ord b2 -> b1 = b2.
Proof.
  unfold ord; intros H; apply N2Z.inj in H.
  pose proof (Byte.of_to_N b1) as H1; rewrite H, Byte.of_to_N in H1.
  congruence.
Qed.

Lemma map_private_area_inj (l1 l2 : list byte) :
  map (fun b => basePoint + ord b) l1 = map (fun b => basePoint + ord b) l2 ->
  l1 = l2.
Proof.
  revert l2; induction l1 as [| b1 l1 IH]; intros [| b2 l2] H;
    try discriminate; [reflexivity |].
  pose proof (f_equal (hd 0) H) as Hb; pose proof (f_equal (@tl Z) H) as Hl.
  cbn [map hd tl] in Hb, Hl.
  f_equal; [apply ord_inj; lia | now apply IH].
Qed.

Lemma join_private_area_returns (span : list byte) (s : text) :
  join private_area_char span = Return s ->
  Forall (fun b => 16 <= ord b) span /\
  s = map (fun b => basePoint + ord b) span.
Proof.
  intros Hs.
  assert (Hall : Forall (fun b => 16 <= ord b) span).
  { apply Forall_forall; intros b Hb.
    destruct (Z.lt_ge_cases (ord b) 16) as [Hlow | Hhigh]; [| exact Hhigh].
    rewrite join_private_area_low in Hs; [discriminate |].
    apply Exists_exists; exists b; split; assumption. }
  split; [exact Hall |].
  rewrite (join_private_area_high span Hall) in Hs; congruence.
Qed.

(** What the private-area mode returns can be decoded: the string has
    one code point per byte of the span, each in
    [[0x0F0010, 0x0F00FF]], and subtracting [0x0F0000] from the code
    points gives back the bytes of the span, in order; the offset is
    [ex.end]. *)
Theorem private_area_text_decodes
  (template : Z -> outcome text) (ex : UnicodeDecodeError)
  (s : text) (offset : Z) :
  _reversible true template ex = Return (s, offset) ->
  offset = end_ ex /\
  List.length s = List.length (slice (object ex) (start ex) (end_ ex)) /\
  Forall (fun cp => 983056 <= cp <= 983295) s /\
  map (fun cp => cp - 983040) s
  = map ord (slice (object ex) (start ex) (end_ ex)).
Proof.
  unfold _reversible.
  set (span := slice (object ex) (start ex) (end_ ex)).
  destruct (join private_area_char span) as [t | e] eqn:Hjoin;
    cbn [Py.bind]; [| discriminate].
  intros [= <- <-].
  destruct (join_private_area_returns span t Hjoin) as [Hall ->].
  unfold basePoint; repeat split.
  - now rewrite length_map.
  - apply Forall_map; revert Hall; apply Forall_impl.
    intros b Hb; pose proof (ord_bounds b); lia.
  - rewrite map_map; apply map_ext; intros b; lia.
Qed.

Lemma private_area_text_decodes_witness :
  3 = 3 /\
  List.length [983295; 983168] = 2%nat /\
  Forall (fun cp => 983056 <= cp <= 983295) [983295; 983168] /\
  map (fun cp => cp - 983040) [983295; 983168]
  = map ord ["255"; "128"]%byte.
Proof.
  apply (private_area_text_decodes (fun _ => Raise ValueError)
    {| object := ["a"; "255"; "128"; "b"]%byte; start := 1; end_ := 3 |}
    [983295; 983168] 3).
  reflexivity.
Defined.

(** The private-area mode is injective: two failing spans for which the
    handler returns the same string hold the same bytes. *)
Theorem private_area_injective
  (template1 template2 : Z -> outcome text)
  (ex1 ex2 : UnicodeDecodeError) (s : text) (o1 o2 : Z) :
  _reversible true template1 ex1 = Return (s, o1) ->
  _reversible true template2 ex2 = Return (s, o2) ->
  slice (object ex1) (start ex1) (end_ ex1)
  = slice (object ex2) (start ex2) (end_ ex2).
Proof.
  unfold _reversible.
  set (span1 := slice (object ex1) (start ex1) (end_ ex1)).
  set (span2 := slice (object ex2) (start ex2) (end_ ex2)).
  destruct (join private_area_char span1) as [t1 | e1] eqn:H1;
    cbn [Py.bind]; [| discriminate].
  destruct (join private_area_char span2) as [t2 | e2] eqn:H2;
    cbn [Py.bind]; [| discriminate].
  intros [= <- _] [= Heq _].
  destruct (join_private_area_returns span1 t1 H1) as [_ E1].
  destruct (join_private_area_returns span2 t2 H2) as [_ E2].
  apply map_private_area_inj; congruence.
Qed.

Lemma private_area_injective_witness :
  slice ["a"; "255"; "128"; "b"]%byte 1 3
  = slice ["255"; "128"]%byte 0 2.
Proof.
  apply (private_area_injective
    (fun _ => Raise ValueError) (fun _ => Return [])
    {| object := ["a"; "255"; "128"; "b"]%byte; start := 1; end_ := 3 |}
    {| object := ["255"; "128"]%byte; start := 0; end_ := 2 |}
    [983295; 983168] 3 2); reflexivity.
Defined.

(** The textual-escape mode, when the template gives a string for every
    byte of the span: the handler returns these strings concatenated in
    the order of the bytes, with [ex.end]. *)
Theorem textual_escape_total
  (template : Z -> outcome text) (esc : byte -> text)
  (ex : UnicodeDecodeError) :
  (forall b, In b (slice (object ex) (start ex) (end_ ex)) ->
             template (ord b) = Return (esc b)) ->
  _reversible false template ex
  = Return (List.concat
              (map esc (slice (object ex) (start ex) (end_ ex))),
            end_ ex).
Proof.
  intros Hesc; unfold _reversible.
  now rewrite (join_total _ esc _ Hesc).
Qed.

Lemma textual_escape_total_witness :
  _reversible false (fun v => Return [92; 120; v])
    {| object := ["a"; "255"; "005"; "b"]%byte; start := 1; end_ := 3 |}
  = Return ([92; 120; 255; 92; 120; 5], 3).
Proof.
  apply (textual_escape_total (fun v => Return [92; 120; v])
    (fun b => [92; 120; ord b])
    {| object := ["a"; "255"; "005"; "b"]%byte; start := 1; end_ := 3 |}).
  intros b _; reflexivity.
Defined.

(** The textual-escape mode, when the template raises: the exception of
    the first byte of the span on which it raises is what the handler
    raises, and nothing is returned for the bytes before it. *)
Theorem textual_escape_first_failure
  (template : Z -> outcome text) (ex : UnicodeDecodeError)
  (pre post : list byte) (b : byte) (e : exn) :
  slice (object ex) (start ex) (end_ ex) = pre ++ b :: post ->
  (forall b', In b' pre -> exists s, template (ord b') = Return s) ->
  template (ord b) = Raise e ->
  _reversible false template ex = Raise e.
Proof.
  intros Hspan Hpre Hb; unfold _reversible; rewrite Hspan, join_app.
  assert (Hjoin : exists s, join (fun b' => template (ord b')) pre
                            = Return s).
  { clear Hspan; induction pre as [| x pre IH]; [now exists [] |].
    destruct (Hpre x (or_introl eq_refl)) as [sx Hx].
    destruct IH as [s Hs]; [intros y Hy; apply Hpre; now right |].
    exists (sx ++ s)%list; cbn [join]; rewrite Hx; cbn [Py.bind].
    now rewrite Hs. }
  destruct Hjoin as [s ->]; cbn [Py.bind join].
  now rewrite Hb.
Qed.

Lemma textual_escape_first_failure_witness :
  _reversible false
    (fun v => if v <? 16 then Raise IndexError else Return [v])
    {| object := ["a"; "255"; "005"; "b"]%byte; start := 1; end_ := 4 |}
  = Raise IndexError.
Proof.
  apply (textual_escape_first_failure
    (fun v => if v <? 16 then Raise IndexError else Return [v])
    {| object := ["a"; "255"; "005"; "b"]%byte; start := 1; end_ := 4 |}
    ["255"%byte] ["b"%byte] "005"%byte IndexError).
  - reflexivity.
  - intros b' [<- | []]; now exists [255].
  - reflexivity.
Defined.

(** * The other patches *)

Lemma byte_of_int_in_range (v : Z) :
  0 <= v < 256 -> exists b, byte_of_int v = Return b /\ ord b = v.
Proof.
  intros Hv; unfold byte_of_int.
  replace ((0 <=? v) && (v <? 256)) with true
    by (symmetry; apply andb_true_intro; split;
        [apply Z.leb_le | apply Z.ltb_lt]; lia).
  destruct (Byte.of_N (Z.to_N v)) as [b |] eqn:Hb.
  - exists b; split; [reflexivity |].
    apply Byte.to_of_N in Hb; unfold ord; rewrite Hb; lia.
  - apply Byte.of_N_None_iff in Hb; lia.
Qed.

Lemma urandom_body (r : register) :
  exists b,
    Gen.bind (_randint 0 255) (fun v => lift (byte_of_int v)) r
    = (Return b, advance r) /\
    ord b = advance r mod 256.
Proof.
  unfold Gen.bind; rewrite randint_nonzero by lia.
  replace (255 - 0 + 1) with 256 by lia.
  pose proof (Z.mod_pos_bound (advance r) 256 ltac:(lia)) as Hb.
  destruct (byte_of_int_in_range (0 + advance r mod 256)) as (b & Hret & Hord);
    [lia |].
  exists b; unfold lift; rewrite Hret; split; [reflexivity | lia].
Qed.

Lemma urandom_comprehension {I} (it : list I) (r : register) :
  exists bs,
    comprehension
      (fun _ => Gen.bind (_randint 0 255) (fun v => lift (byte_of_int v)))
      it r
    = (Return bs, advance_n (List.length it) r) /\
    List.length bs = List.length it /\
    forall i b, nth_error bs i = Some b ->
                ord b = advance_n (S i) r mod 256.
Proof.
  revert r; induction it as [| j it IH]; intros r.
  - exists []; repeat split; intros [| i] b; discriminate.
  - destruct (urandom_body r) as (b0 & Hb0 & Hord).
    destruct (IH (advance r)) as (bs & Hbs & Hlen & Hnth).
    exists (b0 :: bs); repeat split.
    + cbn [comprehension]; unfold Gen.bind at 1; rewrite Hb0.
      unfold Gen.bind at 1; rewrite Hbs.
      unfold ret; cbn [List.length]; now rewrite advance_n_shift.
    + cbn [List.length]; now rewrite Hlen.
    + intros [| i] b Hb.
      * injection Hb as <-; exact Hord.
      * rewrite <- (advance_n_shift (S i)); now apply Hnth.
Qed.

(** The replacement of [os.urandom], once [random.randint] is the
    generator's: it never raises; it returns [size] bytes (none when
    [size] is negative), byte number [i] being the register after
    [i + 1] updates modulo 256, and leaves the register [size] updates
    further. *)
Theorem urandom_unified (size : Z) (r : register) :
  exists bs,
    urandom _randint size r
    = (Return bs, advance_n (Z.to_nat size) r) /\
    List.length bs = Z.to_nat size /\
    forall i b, nth_error bs i = Some b ->
                ord b = advance_n (S i) r mod 256.
Proof.
  unfold urandom.
  destruct (urandom_comprehension (xrange size) r) as (bs & Hbs & Hlen & Hnth).
  rewrite length_xrange in Hbs, Hlen.
  now exists bs.
Qed.

(** [makelist] returns the empty list exactly on the values that are
    false: an empty container, [None], [False], zero, the empty string,
    an object that is false. *)
Theorem makelist_empty_iff_falsy (data : value) :
  makelist data = [] <-> truthy data = false.
Proof.
  destruct data as [| b | z | s | items | items | items | entries | truth];
    cbn [makelist truthy];
    try (destruct items; cbn; split; congruence);
    try (destruct entries; cbn; split; congruence).
  - split; reflexivity.
  - destruct b; split; congruence.
  - destruct (z =? 0); cbn; split; congruence.
  - destruct (String.eqb s EmptyString); cbn; split; congruence.
  - destruct truth; split; congruence.
Qed.
